(** * Herman's gulpfile: a shallow embedding and its properties

    The build script [gulpfile.js] wires external tools into gulp tasks.
    This development embeds the parts of it that carry behaviour:

    - the error sink [onError] and the process supervisor [spawnTask] with
      its process-wide array [spawned] (module [Supervisor]);
    - the argument builder [getJsTestArgs] and the two tasks using it
      (module [JsTest]);
    - the watch handler on style sources and the [svg-clean] task
      (modules [Watch] and [SvgClean]);
    - the table of [gulp.task] registrations (module [Registry]);
    - the dependency resolver described by the specification
      (module [Resolver]).

    Side effects are recorded as a trace of [effect]s in the order the
    script performs them. *)

From stdpp Require Import gmap strings list fin_maps relations pretty.

(** ** JavaScript values that reach the script *)

Module Js.

(** The primitive values that the script tests for truthiness. *)
Inductive value :=
| Undefined
| Null
| Bool (b : bool)
| Number (n : Z)
| Str (s : string).

(** JavaScript's ToBoolean on these values. *)
Definition truthy (v : value) : bool :=
  match v with
  | Undefined | Null => false
  | Bool b => b
  | Number n => negb (n =? 0)%Z
  | Str s => negb (String.eqb s "")
  end.

(** What the script passes around as an error: an [Error] object (from a
    child-process or stream ['error'] event, or made with [new Error]), or a
    bare exit code (the call [onError(code)]). *)
Inductive error :=
| ErrorObject (name message : string)
| ExitCode (code : Z).

#[global] Instance value_eq_dec : EqDecision value.
Proof. solve_decision. Defined.

#[global] Instance error_eq_dec : EqDecision error.
Proof. solve_decision. Defined.

(** [new Error(message)]. *)
Definition new_Error (message : string) : error := ErrorObject "Error" message.

(** [err.message]: the message of an [Error] object; [undefined] on a
    number. *)
Definition message_of (err : error) : value :=
  match err with
  | ErrorObject _ m => Str m
  | ExitCode _ => Undefined
  end.

(** String conversion inside a template literal: [Error.prototype.toString]
    for objects, the decimal numeral for numbers. *)
Definition to_string (err : error) : string :=
  match err with
  | ErrorObject n m =>
      if String.eqb m "" then n
      else if String.eqb n "" then m
      else n +:+ ": " +:+ m
  | ExitCode c => pretty c
  end.

(** [a || b] where [a] is [err.message] and [b] a string. *)
Definition or_string (a : value) (b : string) : string :=
  match a with
  | Str s => if truthy a then s else b
  | _ => b
  end.

End Js.

(** ** Observable effects *)

(** A piece of text handed to [gutil.log], with the [chalk] colour applied
    to it; an argument of [gutil.log] is a sequence of such pieces. *)
Inductive styled :=
| Plain (s : string)
| Red (s : string)
| Cyan (s : string).

(** The first argument of [gulp.src]: one glob or an array of globs. *)
Inductive globs :=
| Glob (g : string)
| Globs (gs : list string).

(** A glob argument inside a template literal: arrays join with commas. *)
Definition globs_to_string (src : globs) : string :=
  match src with
  | Glob g => g
  | Globs gs => String.concat "," gs
  end.

(** A completion callback is named after the gulp task that owns it. *)
Inductive effect :=
| Log (args : list (list styled))                 (* gutil.log(...) *)
| Beep                                            (* gutil.beep() *)
| Emit (event : string)                           (* this.emit(event) *)
| Callback (cb : string) (err : option Js.error)  (* cb() or cb(err) *)
| Spawn (command : string) (args : list string)   (* child_process.spawn *)
| Kill (pid : nat)                                (* pcs.kill() *)
| SassLint (src : globs) (failOnError : bool)     (* the sass-lint stream *)
| Delete (path : string).                         (* del(path) *)

#[global] Instance styled_eq_dec : EqDecision styled.
Proof. solve_decision. Defined.

#[global] Instance globs_eq_dec : EqDecision globs.
Proof. solve_decision. Defined.

#[global] Instance effect_eq_dec : EqDecision effect.
Proof. solve_decision. Defined.

(** The callback invocations of a trace, in order. *)
Definition callbacks (cb : string) (t : list effect) : list (option Js.error) :=
  omap (λ e, match e with
             | Callback cb' err => if decide (cb' = cb) then Some err else None
             | _ => None
             end) t.

Definition is_log (e : effect) : bool :=
  match e with Log _ => true | _ => false end.

Definition is_beep (e : effect) : bool :=
  match e with Beep => true | _ => false end.

Definition is_emit (e : effect) : bool :=
  match e with Emit _ => true | _ => false end.

(** A failure is "reported" when it is logged and the bell rings. *)
Definition reported (t : list effect) : bool :=
  existsb is_log t && existsb is_beep t.

(** ** The error sink and the process supervisor *)

Module Supervisor.

(** The receiver [this] of a call of [onError]: [undefined] for the plain
    calls [onError(err)] (the file is in strict mode), or the object the
    function is attached to as a listener, which may or may not carry an
    [emit] method. *)
Inductive receiver :=
| ThisUndefined
| ThisObject (has_emit : bool).

(** [this && this.emit] *)
Definition can_emit (this : receiver) : bool :=
  match this with
  | ThisUndefined => false
  | ThisObject e => e
  end.

(** [onError], lines 67-73. *)
Definition onError (this : receiver) (err : Js.error) : list effect :=
  [ Log [[Red (Js.or_string (Js.message_of err)
                            ("Task failed with code: " +:+ Js.to_string err))]];
    Beep ]
  ++ (if can_emit this then [Emit "end"] else []).

(** A child-process handle as [spawnTask] creates it: the closures attached
    to it capture [cb] and [failOnError]. *)
Record child := Child {
  pid : nat;
  command : string;
  args : list string;
  cb : string;
  failOnError : bool;
}.

(** The listener attached with [.on('error', ...)], lines 79-86. *)
Definition on_error (c : child) (err : Js.error) : list effect :=
  if failOnError c then [Beep; Callback (cb c) (Some err)]
  else onError ThisUndefined err ++ [Callback (cb c) None].

(** [if (code)]: the exit code is a number, or [null] when the child was
    ended by a signal. *)
Definition code_truthy (code : option Z) : bool :=
  match code with
  | Some n => Js.truthy (Js.Number n)
  | None => Js.truthy Js.Null
  end.

(** The listener attached with [.on('exit', ...)], lines 87-96. The template
    literal is only reached with a number in [code]. *)
Definition on_exit (c : child) (code : option Z) : list effect :=
  if code_truthy code then
    if failOnError c then
      [Beep;
       Callback (cb c)
         (Some (Js.new_Error ("Task failed with code " +:+ pretty (default 0%Z code))))]
    else onError ThisUndefined (Js.ExitCode (default 0%Z code)) ++ [Callback (cb c) None]
  else [Callback (cb c) None].

(** The state of the running gulp process: the module-level array
    [spawned], the children the operating system still runs, and the
    effects performed so far. *)
Record world := World {
  spawned : list child;
  live : list nat;
  trace : list effect;
}.

(** [const spawned = []] at program start. *)
Definition init : world := World [] [] [].

(** [spawnTask], lines 76-98: start the child, attach both listeners, push
    the handle. [failOnError] defaults to [true] when the argument is
    omitted. The handle of the n-th spawn is numbered n. *)
Definition spawnTask (command : string) (args : list string) (cb : string)
    (failOnError : option bool) (w : world) : world :=
  let c := Child (length (spawned w)) command args cb (default true failOnError) in
  World (spawned w ++ [c])
        (live w ++ [pid c])
        (trace w ++ [Spawn command args]).

(** What can happen to the process after start-up. *)
Inductive event :=
| CallSpawnTask (command : string) (args : list string) (cb : string)
                (failOnError : option bool)
| ChildError (p : nat) (err : Js.error)   (* 'error' on a child handle *)
| ChildExit (p : nat) (code : option Z)   (* 'exit' on a child handle *)
| ProcessExit.                            (* 'exit' on the gulp process *)

Definition find_child (p : nat) (w : world) : option child :=
  spawned w !! p.

(** The listener registered with [process.on('exit', ...)], lines 61-65. *)
Definition on_process_exit (w : world) : list effect :=
  (λ pcs, Kill (pid pcs)) <$> spawned w.

Definition step (w : world) (e : event) : world :=
  match e with
  | CallSpawnTask command args cb f => spawnTask command args cb f w
  | ChildError p err =>
      match find_child p w with
      | Some c => World (spawned w) (live w) (trace w ++ on_error c err)
      | None => w
      end
  | ChildExit p code =>
      match find_child p w with
      | Some c =>
          World (spawned w) (filter (λ q, q ≠ p) (live w))
                (trace w ++ on_exit c code)
      | None => w
      end
  | ProcessExit =>
      World (spawned w) (live w) (trace w ++ on_process_exit w)
  end.

Definition run (w : world) (evs : list event) : world :=
  foldl step w evs.

(** The pids that were sent a termination signal. *)
Definition killed (t : list effect) : list nat :=
  omap (λ e, match e with Kill p => Some p | _ => None end) t.

(** The handles that the calls of [spawnTask] among [evs] create, the
    first of them numbered [n]. *)
Fixpoint handles_from (n : nat) (evs : list event) : list child :=
  match evs with
  | [] => []
  | CallSpawnTask command args cb f :: evs' =>
      Child n command args cb (default true f) :: handles_from (S n) evs'
  | _ :: evs' => handles_from n evs'
  end.

(** Every child the operating system still runs has its handle in
    [spawned], and handles are numbered by their index. *)
Definition supervised (w : world) : Prop :=
  live w ⊆ seq 0 (length (spawned w)) ∧
  pid <$> spawned w = seq 0 (length (spawned w)).

End Supervisor.

(** ** Paths, lines 24-57 *)

Module paths.

Definition DIST_DIR := "dist/".
Definition SASS_DIR := "scss/".
Definition SASS_TESTS_DIR := "test/sass/".
Definition IMG := "assets/img/**/*".
Definition SVG := "assets/svg/**/*.svg".
Definition ASSETS_JS_DIR := "assets/js/".
Definition FONTS := "assets/fonts/**/*".
Definition DOCS_DIR := "docs/".
Definition JS_TESTS_DIR := "test/".
Definition TEMPLATES_DIR := "templates/".
Definition IGNORE := ["!**/.#*"; "!**/flycheck_*"].

(** The fields that [init()] adds. *)
Definition TEMPLATES := [TEMPLATES_DIR +:+ "**/*.j2"] ++ IGNORE.
Definition SASS := [SASS_DIR +:+ "**/*.scss"] ++ IGNORE.
Definition ASSETS_JS := [ASSETS_JS_DIR +:+ "**/*.js"] ++ IGNORE.
Definition JS_TESTS := ["lib/**/*.js"; "index.js"] ++ IGNORE.
Definition JS_TESTS_FILES :=
  [JS_TESTS_DIR +:+ "*.js"; JS_TESTS_DIR +:+ "**/*.j2"] ++ IGNORE.

End paths.

(** ** Linting styles, lines 128-142 *)

(** [sasslintTask]: announces the command when [log] is set, then runs the
    lint stream; with [failOnError] unset the stream's errors go to
    [onError]. *)
Definition sasslintTask (src : globs) (failOnError log : bool) : list effect :=
  (if log
   then [Log [[Plain "Running"];
              [Plain "'"; Cyan ("sasslint " +:+ globs_to_string src); Plain "'..."]]]
   else [])
  ++ [SassLint src failOnError].

(** The lint runs of a trace. *)
Definition lints (t : list effect) : list (globs * bool) :=
  omap (λ e, match e with SassLint src f => Some (src, f) | _ => None end) t.

(** ** JavaScript tests, lines 174-205 *)

Module JsTest.

(** A value of the option object [obj]. *)
Inductive opt :=
| OptArray (vals : list string)
| OptBool (b : bool)
| OptStr (s : string).

(** The option object; [Object.keys] lists its keys in this order. *)
Definition obj (verbose : Js.value) : list (string * opt) :=
  let covReporters :=
    if Js.truthy verbose
    then ["text"; "html"; "lcovonly"]
    else ["text-summary"; "html"; "lcovonly"] in
  [ ("include", OptArray paths.JS_TESTS);
    ("reporter", OptArray covReporters);
    ("cache", OptBool true);
    ("all", OptBool true);
    ("report-dir", OptStr "./jscov") ].

(** A scalar option inside a template literal. *)
Definition scalar_to_string (v : opt) : string :=
  match v with
  | OptBool true => "true"
  | OptBool false => "false"
  | OptStr s => s
  | OptArray vals => String.concat "," vals
  end.

(** [args.unshift(x)] *)
Definition unshift (x : string) (args : list string) : list string := x :: args.

(** One round of the outer loop, lines 188-194. *)
Definition add_option (args : list string) (kv : string * opt) : list string :=
  match kv.2 with
  | OptArray vals =>
      foldl (λ args val, unshift ("--" +:+ kv.1 +:+ "=" +:+ val) args) args vals
  | v => unshift ("--" +:+ kv.1 +:+ "=" +:+ scalar_to_string v) args
  end.

Definition getJsTestArgs (verbose : Js.value) : list string :=
  let mochaReporter := if Js.truthy verbose then "spec" else "dot" in
  let args := ["./node_modules/.bin/mocha"; "--reporter"; mochaReporter] in
  foldl add_option args (obj verbose).

(** The tasks [jstest] and [jstest-nofail]; the latter calls
    [getJsTestArgs()] with no argument. *)
Definition jstest (w : Supervisor.world) : Supervisor.world :=
  Supervisor.spawnTask "./node_modules/.bin/nyc" (getJsTestArgs (Js.Bool true))
                       "jstest" None w.

Definition jstest_nofail (w : Supervisor.world) : Supervisor.world :=
  Supervisor.spawnTask "./node_modules/.bin/nyc" (getJsTestArgs Js.Undefined)
                       "jstest-nofail" (Some false) w.

(** The strings one option contributes, in the order the loop meets them. *)
Definition option_strings (kv : string * opt) : list string :=
  match kv.2 with
  | OptArray vals => (λ val, "--" +:+ kv.1 +:+ "=" +:+ val) <$> vals
  | v => ["--" +:+ kv.1 +:+ "=" +:+ scalar_to_string v]
  end.

(** A string of the shape [--key=value]. *)
Definition is_key_value (s : string) : Prop :=
  ∃ key val, s = "--" +:+ key +:+ "=" +:+ val.

End JsTest.

(** ** The watch handler on style sources, lines 318-322 *)

Module Watch.

(** The event object gulp hands to a watch callback. *)
Record file_event := FileEvent {
  type : string;
  path : string;
}.

(** The callback bound to [paths.SASS]. *)
Definition on_sass_event (ev : file_event) : list effect :=
  if String.eqb (type ev) "added" || String.eqb (type ev) "changed"
  then sasslintTask (Glob (path ev)) false true
  else [].

End Watch.

(** ** The task [svg-clean], lines 345-349 *)

Module SvgClean.

(** How a promise settles. *)
Inductive settled (A : Type) :=
| Fulfilled (v : A)
| Rejected (reason : Js.error).
Arguments Fulfilled {A} v.
Arguments Rejected {A} reason.

(** [p.then(f)] with a single handler: [f] runs when [p] is fulfilled; a
    rejection skips it and passes to the derived promise. *)
Definition then_ {A} (p : settled A) (f : A → list effect) : list effect * settled unit :=
  match p with
  | Fulfilled v => (f v, Fulfilled ())
  | Rejected r => ([], Rejected r)
  end.

Definition icons : string := paths.TEMPLATES_DIR +:+ "_icons.svg".

(** The task body; [del] is the outcome of deleting the given path. *)
Definition svg_clean (del : string → settled (list string)) : list effect :=
  Delete icons :: (then_ (del icons) (λ _, [Callback "svg-clean" None])).1.

(** gulp starts a dependent of a callback task once the callback was called
    without an error. *)
Definition signals_completion (cb : string) (t : list effect) : bool :=
  bool_decide (None ∈ callbacks cb t).

End SvgClean.

(** ** Prerequisite graphs *)

(** A prerequisite graph: each registered name with the names it lists. *)
Abbreviation graph := (gmap string (list string)).

(** [prereq g t d]: task [t] is registered and lists [d]. *)
Definition prereq (g : graph) (t d : string) : Prop :=
  ∃ deps, g !! t = Some deps ∧ d ∈ deps.

(** [d] is [t] or one of its transitive prerequisites. *)
Definition reach (g : graph) : relation string := rtc (prereq g).

(** No task transitively depends on itself. *)
Definition acyclic (g : graph) : Prop := ∀ t, ¬ tc (prereq g) t t.

(** Every listed prerequisite is itself a registered task, so that the
    registrations form a graph on the tasks. *)
Definition task_graph (g : graph) : Prop :=
  map_Forall (λ _ deps, Forall (λ d : string, is_Some (g !! d)) deps) g.

(** Each task's prerequisites have a smaller rank than the task. *)
Definition ranked (rank : string → nat) (g : graph) : Prop :=
  map_Forall (λ t deps, Forall (λ d : string, rank d < rank t) deps) g.

(** The position of a name in a list (its length when absent). *)
Fixpoint position (x : string) (l : list string) : nat :=
  match l with
  | [] => 0
  | y :: l' => if decide (x = y) then 0 else S (position x l')
  end.


(** A sequence in which each task comes after all of its prerequisites:
    wherever [t] occurs, the names it lists occur earlier. *)
Definition sorted (g : graph) (seen : list string) : Prop :=
  ∀ l1 t l2 d, seen = l1 ++ t :: l2 → prereq g t d → d ∈ l1.

(** ** The task registry, lines 144-384 *)

Module Registry.

(** What [gulp.task(name, deps, fn)] stores: the prerequisite names and
    whether an action was given. *)
Record task := Task {
  dep : list string;
  has_fn : bool;
}.

(** [gulp.task]: a later registration under the same name replaces the
    earlier one. *)
Definition gulp_task (reg : gmap string task) (r : string * list string * bool)
    : gmap string task :=
  <[r.1.1 := Task r.1.2 r.2]> reg.

(** The calls of [gulp.task] in the order of the file. *)
Definition registrations : list (string * list string * bool) :=
  [ ("prettier", [], true);
    ("eslint", ["prettier"], true);
    ("eslint-nofail", [], true);
    ("sasslint", [], true);
    ("sasslint-nofail", [], true);
    ("sass", [], true);
    ("sasstest", [], true);
    ("jstest", [], true);
    ("jstest-nofail", [], true);
    ("test", ["sasstest"; "jstest"], false);
    ("browser-sync", [], true);
    ("compile", ["sass"; "minify"], true);
    ("default", ["compile"; "eslint"; "sasslint"; "test"], false);
    ("serve", ["watch"; "browser-sync"], false);
    ("dev", ["prettier"; "eslint-nofail"; "sasslint-nofail"; "test"; "watch"], false);
    ("watch", [], true);
    ("copy-fonts", [], true);
    ("jsmin", [], true);
    ("svg-clean", [], true);
    ("svgmin", ["svg-clean"], true);
    ("imagemin", [], true);
    ("minify", ["jsmin"; "svgmin"; "imagemin"; "copy-fonts"], false) ].

Definition tasks : gmap string task := foldl gulp_task ∅ registrations.

(** The prerequisite graph of the registry. *)
Definition prerequisites : graph := dep <$> tasks.

(** A listing of the task names in which prerequisites come first. *)
Definition levels : list string :=
  [ "prettier"; "eslint"; "eslint-nofail"; "sasslint"; "sasslint-nofail";
    "sass"; "sasstest"; "jstest"; "jstest-nofail"; "test"; "browser-sync";
    "copy-fonts"; "jsmin"; "svg-clean"; "svgmin"; "imagemin"; "minify";
    "compile"; "default"; "watch"; "serve"; "dev" ].

End Registry.

(** ** The dependency resolver *)

Module Resolver.

Inductive resolve_error :=
| UnknownTaskError (name : string)
| CyclicDependencyError (name : string).

(** The outcome of a traversal: the sequence built so far, or a failure.
    [OutOfFuel] only marks an exhausted recursion budget. *)
Inductive result :=
| Ok (order : list string)
| Fail (e : resolve_error)
| OutOfFuel.

(** Visit the declared prerequisites one after the other, each starting
    from the sequence the previous one left. *)
Fixpoint visit_all (visit1 : list string → string → result)
    (deps : list string) (seen : list string) : result :=
  match deps with
  | [] => Ok seen
  | d :: ds =>
      match visit1 seen d with
      | Ok seen' => visit_all visit1 ds seen'
      | r => r
      end
  end.

(** Modelled from the spec: the dependency resolver is gulp's own and not
    part of the repository's source; this is the traversal of section 4.2.
    [gray] holds the names in progress on the current path, [done] the
    names already visited and emitted, in order. A name on the path is a
    cycle; a name already visited is skipped; an unregistered name is an
    error; otherwise the prerequisites are visited in declaration order and
    the name itself is emitted after them. *)
Fixpoint visit (fuel : nat) (g : graph) (gray seen : list string)
    (name : string) : result :=
  match fuel with
  | 0 => OutOfFuel
  | S fuel' =>
      if decide (name ∈ gray) then Fail (CyclicDependencyError name)
      else if decide (name ∈ seen) then Ok seen
      else match g !! name with
           | None => Fail (UnknownTaskError name)
           | Some deps =>
               match visit_all (visit fuel' g (name :: gray)) deps seen with
               | Ok seen' => Ok (seen' ++ [name])
               | r => r
               end
           end
  end.

(** Modelled from the spec: [resolve(name)] of section 4.2. A path holds
    distinct registered names, so a budget of one more than the number of
    tasks is never used up. *)
Definition resolve (g : graph) (name : string) : result :=
  visit (S (size g)) g [] [] name.

(** What a traversal from [roots] adds to [done]: the new names follow
    [done], nothing repeats, the whole stays sorted, every root ends up
    visited, and each new name is reachable from a root and off the
    path [gray]. *)
Definition extends (g : graph) (gray seen roots seen' : list string) : Prop :=
  ∃ new,
    seen' = seen ++ new ∧ NoDup seen' ∧ sorted g seen' ∧
    (∀ d, d ∈ roots → d ∈ seen') ∧
    (∀ x, x ∈ new → (∃ d, d ∈ roots ∧ reach g d x) ∧ x ∉ gray).

(** The outcome of invoking a task. *)
Inductive run_outcome :=
| Completed
| StepFailed (name : string)
| ResolutionFailed (e : resolve_error)
| Diverged.

(** Run the actions of a resolved sequence in order, stopping at the first
    that fails; returns the actions started. *)
Fixpoint execute (action : string → bool) (order : list string)
    : list string * run_outcome :=
  match order with
  | [] => ([], Completed)
  | t :: rest =>
      if action t
      then let r := execute action rest in (t :: r.1, r.2)
      else ([t], StepFailed t)
  end.

(** Modelled from the spec: a run (sections 3 and 7) resolves first and
    only then starts actions. *)
Definition invoke (g : graph) (action : string → bool) (name : string)
    : list string * run_outcome :=
  match resolve g name with
  | Ok order => execute action order
  | Fail e => ([], ResolutionFailed e)
  | OutOfFuel => ([], Diverged)
  end.

(** The graph of the scenario: A, B after A, C after A and B. *)
Definition abc : graph :=
  <["C" := ["A"; "B"]]> (<["B" := ["A"]]> (<["A" := []]> ∅)).

(** A graph with a shared prerequisite: R after Y and T, T after P and Y. *)
Definition shared : graph :=
  <["R" := ["Y"; "T"]]> (<["T" := ["P"; "Y"]]> (<["P" := []]> (<["Y" := []]> ∅))).

(** The graph of the scenario: A after B, B after A. *)
Definition ab_cycle : graph :=
  <["B" := ["A"]]> (<["A" := ["B"]]> ∅).

End Resolver.

(** ** The paths object and its [init], lines 24-57 *)

Module PathsObject.

(** The fields of the object literal. *)
Record base := Base {
  DIST_DIR : string;
  SASS_DIR : string;
  SASS_TESTS_DIR : string;
  IMG : string;
  SVG : string;
  ASSETS_JS_DIR : string;
  FONTS : string;
  DOCS_DIR : string;
  JS_TESTS_DIR : string;
  TEMPLATES_DIR : string;
  IGNORE : list string;
}.

(** The fields that [init()] assigns. *)
Record derived := Derived {
  TEMPLATES : list string;
  SASS : list string;
  ASSETS_JS : list string;
  JS_TESTS : list string;
  ALL_JS : list string;
  JS_TESTS_FILES : list string;
}.

(** The object: before [init()] runs the derived fields are undefined. *)
Record t := Make {
  fields : base;
  computed : option derived;
}.

(** The right-hand sides of the assignments in [init()]. *)
Definition derive (b : base) : derived :=
  {| TEMPLATES := [TEMPLATES_DIR b +:+ "**/*.j2"] ++ IGNORE b;
     SASS := [SASS_DIR b +:+ "**/*.scss"] ++ IGNORE b;
     ASSETS_JS := [ASSETS_JS_DIR b +:+ "**/*.js"] ++ IGNORE b;
     JS_TESTS := ["lib/**/*.js"; "index.js"] ++ IGNORE b;
     ALL_JS :=
       [ ASSETS_JS_DIR b +:+ "**/*.js";
         "lib/**/*.js";
         JS_TESTS_DIR b +:+ "**/*.js";
         "gulpfile.js";
         "index.js";
         "!assets/js/highlight.js";
         "!assets/js/jquery-3.1.1.slim.js";
         "!assets/js/srcdoc-polyfill.min.js" ] ++ IGNORE b;
     JS_TESTS_FILES :=
       [JS_TESTS_DIR b +:+ "*.js"; JS_TESTS_DIR b +:+ "**/*.j2"] ++ IGNORE b |}.

(** [init()]: assigns the derived fields from the others and returns
    [this]. *)
Definition init (p : t) : t := Make (fields p) (Some (derive (fields p))).

(** The object literal of the file. *)
Definition literal : t :=
  Make (Base "dist/" "scss/" "test/sass/" "assets/img/**/*" "assets/svg/**/*.svg"
             "assets/js/" "assets/fonts/**/*" "docs/" "test/" "templates/"
             ["!**/.#*"; "!**/flycheck_*"])
       None.

(** The derived lists of an object, in the order [init()] assigns them
    (none before [init()]). *)
Definition derived_lists (p : t) : list (list string) :=
  match computed p with
  | Some d => [TEMPLATES d; SASS d; ASSETS_JS d; JS_TESTS d; ALL_JS d; JS_TESTS_FILES d]
  | None => []
  end.

End PathsObject.

(** ** Stream pipelines and the handlers attached to them *)

Module Pipeline.

(** The only listener the file ever attaches to a stream is [onError]. *)
Inductive listener := OnError.

(** One stream of a pipe chain: the call that made it and the ['error']
    listeners attached to it. *)
Record stage := Stage {
  plugin : string;
  listeners : list listener;
}.

(** A chain [gulp.src(...).pipe(a).pipe(b)...]: the streams in order; the
    expression denotes the last one. *)
Definition chain := list stage.

(** [gulp.src(...)] *)
Definition gulp_src : chain := [Stage "gulp.src" []].

(** [c.pipe(p)]: the destination stream becomes the last of the chain. *)
Definition pipe (p : string) (c : chain) : chain := c ++ [Stage p []].

(** [c.on('error', h)]: attaches [h] to the stream the chain denotes and
    returns that same stream. *)
Definition on (h : listener) (c : chain) : chain :=
  alter (λ st, Stage (plugin st) (listeners st ++ [h])) (pred (length c)) c.

(** What becomes of an ['error'] event: the effects of the listeners, or
    the error itself when the file attached none (it is left to gulp, or
    thrown by the emitter). *)
Inductive handling :=
| Handled (t : list effect)
| Unhandled (err : Js.error).

(** [stream.emit('error', err)]: each listener runs with the stream as its
    receiver, and a stream has an [emit] method. *)
Definition emit_error (st : stage) (err : Js.error) : handling :=
  match listeners st with
  | [] => Unhandled err
  | ls => Handled (ls ≫= λ _, Supervisor.onError (Supervisor.ThisObject true) err)
  end.

(** An error raised by the [i]-th stream of the chain. *)
Definition raise (c : chain) (i : nat) (err : Js.error) : option handling :=
  (λ st, emit_error st err) <$> c !! i.

(** The line [gutil.log('Running', ...)] of the three task helpers. *)
Definition announce (tool : string) (src : globs) (log : Js.value) : list effect :=
  if Js.truthy log
  then [Log [[Plain "Running"];
             [Plain "'"; Cyan (tool +:+ " " +:+ globs_to_string src); Plain "'..."]]]
  else [].

(** [eslintTask], lines 100-114. *)
Definition eslintTask (src : globs) (failOnError log : Js.value)
    : list effect * chain :=
  let stream :=
    pipe "eslint.failAfterError()" (pipe "eslint.format()" (pipe "eslint()" gulp_src)) in
  (announce "eslint" src log,
   if negb (Js.truthy failOnError) then on OnError stream else stream).

(** [prettierTask], lines 116-126. *)
Definition prettierTask (src : globs) (log : Js.value) : list effect * chain :=
  (announce "prettier" src log,
   on OnError (pipe "gulp.dest('./')" (pipe "prettier()" gulp_src))).

(** The stream [sasslintTask] builds, lines 133-141. *)
Definition sasslintStream (failOnError : Js.value) : chain :=
  let stream :=
    pipe "sasslint.failOnError()" (pipe "sasslint.format()" (pipe "sasslint()" gulp_src)) in
  if negb (Js.truthy failOnError) then on OnError stream else stream.

(** The task [sass], lines 154-168. *)
Definition sass : chain :=
  pipe "gulp.dest(dist/css/)"
    (pipe "sourcemaps.write('.')"
       (pipe "autoprefixer()"
          (on OnError (pipe "sass()" (pipe "sourcemaps.init()" gulp_src))))).

(** The tasks registered at lines 144-152. *)
Definition all_js : globs := Globs (PathsObject.ALL_JS (PathsObject.derive (PathsObject.fields PathsObject.literal))).

Definition prettier := prettierTask all_js Js.Undefined.
Definition eslint := eslintTask all_js (Js.Bool true) Js.Undefined.
Definition eslint_nofail := eslintTask all_js Js.Undefined Js.Undefined.

End Pipeline.

(** ** The bindings of the task [watch], lines 300-328 *)

Module WatchBindings.

(** What a binding does when it fires: run named tasks, or call the
    handler of lines 318-322. *)
Inductive reaction :=
| RunTasks (names : list string)
| SassHandler.

(** The calls of [gulp.watch] in order, with their pattern arguments as
    written (the first nests arrays). *)
Definition bindings : list (list globs * reaction) :=
  [ ([ Pipeline.all_js; Globs paths.SASS; Globs paths.TEMPLATES;
       Glob paths.IMG; Glob paths.SVG; Glob paths.FONTS;
       Glob (paths.TEMPLATES_DIR +:+ "_icon_template.lodash");
       Glob "./README.md"; Glob "./package.json" ],
     RunTasks ["compile"]);
    ([Globs paths.JS_TESTS_FILES], RunTasks ["jstest-nofail"]);
    ([Globs paths.SASS], SassHandler);
    ([Globs paths.SASS], RunTasks ["sasstest"]);
    ([Glob "**/.sass-lint.yml"], RunTasks ["sasslint-nofail"]);
    ([Glob "**/.eslintrc.yml"], RunTasks ["eslint-nofail"]) ].

(** The task names the bindings mention. *)
Definition bound_tasks : list string :=
  bindings ≫= λ b, match b.2 with RunTasks names => names | SassHandler => [] end.

End WatchBindings.

(** ** Paths that avoid a task *)




(** ** Observations on traces and events *)

(** The errors that a trace hands to completion callbacks. *)
Definition failures (t : list effect) : list Js.error :=
  omap (λ e, match e with Callback _ (Some err) => Some err | _ => None end) t.

(** A call of [spawnTask] that passes [false] for [failOnError]; other
    events count as such. *)
Definition best_effort (e : Supervisor.event) : bool :=
  match e with
  | Supervisor.CallSpawnTask _ _ _ (Some false) => true
  | Supervisor.CallSpawnTask _ _ _ _ => false
  | _ => true
  end.

(** Every handle is best-effort and no callback got an error so far. *)
Definition quiet (w : Supervisor.world) : Prop :=
  Forall (λ c, Supervisor.failOnError c = false) (Supervisor.spawned w) ∧
  failures (Supervisor.trace w) = [].

(** The number of strings an option contributes to the argument list. *)
Definition option_count (kv : string * JsTest.opt) : nat :=
  match kv.2 with
  | JsTest.OptArray vals => length vals
  | _ => 1
  end.

(** * Properties *)

Example resolve_abc : Resolver.resolve Resolver.abc "C" = Resolver.Ok ["A"; "B"; "C"].
Proof. vm_compute. reflexivity. Qed.

Example resolve_ab_cycle :
  Resolver.resolve Resolver.ab_cycle "A" = Resolver.Fail (Resolver.CyclicDependencyError "A").
Proof. vm_compute. reflexivity. Qed.

Section supervisor_facts.
Import Supervisor.

Lemma or_string_nonempty (a : Js.value) (b : string) :
  b ≠ "" → Js.or_string a b ≠ "".
Proof.
  intros Hb. destruct a as [| |?|?|s]; simpl; try done.
  destruct (String.eqb_spec s ""); simpl; congruence.
Qed.

Lemma onError_shape this err :
  ∃ msg, msg ≠ "" ∧
    onError this err =
      [Log [[Red msg]]; Beep] ++ (if can_emit this then [Emit "end"] else []).
Proof.
  eexists. split; [|reflexivity].
  apply or_string_nonempty. discriminate.
Qed.

Lemma onError_reported this err : reported (onError this err) = true.
Proof. reflexivity. Qed.

Lemma callbacks_app cb (t1 t2 : list effect) :
  callbacks cb (t1 ++ t2) = callbacks cb t1 ++ callbacks cb t2.
Proof. apply omap_app. Qed.

Lemma callbacks_onError cb this err : callbacks cb (onError this err) = [].
Proof. unfold onError. destruct (can_emit this); reflexivity. Qed.

Lemma callbacks_self cb err : callbacks cb [Callback cb err] = [err].
Proof. unfold callbacks. simpl. by rewrite decide_True. Qed.

Lemma find_child_new command args cb f w :
  find_child (length (spawned w)) (spawnTask command args cb f w)
  = Some (Child (length (spawned w)) command args cb (default true f)).
Proof.
  unfold find_child, spawnTask. simpl.
  rewrite lookup_app_r by lia. by rewrite Nat.sub_diag.
Qed.

Lemma code_truthy_nonzero (code : Z) : code ≠ 0%Z → code_truthy (Some code) = true.
Proof. intros H. simpl. by destruct (Z.eqb_spec code 0). Qed.

(** [spawned] only grows: a step appends the new handle or leaves the
    array as it is. *)
Lemma step_spawned w e :
  spawned (step w e) = spawned w ++ handles_from (length (spawned w)) [e].
Proof.
  destruct e as [command args cb f|p err|p code|]; simpl.
  - reflexivity.
  - destruct (find_child p w); simpl; by rewrite app_nil_r.
  - destruct (find_child p w); simpl; by rewrite app_nil_r.
  - by rewrite app_nil_r.
Qed.

Lemma run_spawned evs w :
  spawned (run w evs) = spawned w ++ handles_from (length (spawned w)) evs.
Proof.
  revert w. induction evs as [|e evs IH]; intros w; simpl.
  - by rewrite app_nil_r.
  - unfold run in IH. rewrite IH, step_spawned.
    rewrite <- app_assoc. f_equal.
    destruct e; simpl; rewrite ?app_nil_r, ?Nat.add_0_r; try reflexivity.
    rewrite length_app. simpl. by rewrite Nat.add_1_r.
Qed.

Lemma step_supervised w e : supervised w → supervised (step w e).
Proof.
  intros [Hl Hp]. destruct e as [command args cb f|p err|p code|]; simpl.
  - split; simpl.
    + rewrite length_app. simpl. rewrite seq_app. simpl.
      intros x. rewrite !elem_of_app. intros [?|?]; auto.
    + rewrite fmap_app, Hp, length_app. simpl. by rewrite seq_app.
  - destruct (find_child p w); by split.
  - destruct (find_child p w); split; simpl; auto.
    intros x Hx. apply list_elem_of_filter in Hx as [_ Hx]. auto.
  - by split.
Qed.

Lemma run_supervised evs w : supervised w → supervised (run w evs).
Proof.
  revert w. induction evs as [|e evs IH]; intros w Hw; simpl; auto.
  apply IH. by apply step_supervised.
Qed.

Lemma init_supervised : supervised init.
Proof. split; simpl; [set_solver | done]. Qed.

Lemma killed_on_process_exit w : killed (on_process_exit w) = pid <$> spawned w.
Proof.
  unfold killed, on_process_exit.
  induction (spawned w) as [|c l IH]; simpl; [done|]. f_equal. exact IH.
Qed.

End supervisor_facts.

(** C9: every call of [onError] logs one non-empty message (the error's
    own message, or "Task failed with code: ..." when it has none) and
    rings the bell once; it emits ['end'] exactly when its receiver exists
    and has an [emit] method, and otherwise only logs and beeps. *)
Theorem onError_logs_beeps_and_ends (this : Supervisor.receiver) (err : Js.error) :
  reported (Supervisor.onError this err) = true ∧
  (∃ msg, msg ≠ "" ∧
     filter (λ e, is_emit e = false) (Supervisor.onError this err)
     = [Log [[Red msg]]; Beep]) ∧
  filter (λ e, is_emit e = true) (Supervisor.onError this err)
  = (if Supervisor.can_emit this then [Emit "end"] else []) ∧
  Supervisor.onError Supervisor.ThisUndefined err
  = Supervisor.onError (Supervisor.ThisObject false) err.
Proof.
  split; [apply onError_reported|].
  destruct (onError_shape this err) as (msg & Hmsg & ->).
  split; [exists msg; split; [done|]|split];
    destruct (Supervisor.can_emit this); reflexivity.
Qed.

(** C1: for a child started by [spawnTask(command, args, cb, failOnError)]:
    exit code zero calls [cb] with no error and reports nothing; a non-zero
    exit code with [failOnError] true (the default) calls [cb] once with an
    [Error] whose message carries the code; a non-zero exit code with
    [failOnError] false passes the code to [onError] (log and beep) and then
    calls [cb] with no error; an ['error'] event on the child follows the
    same policy, [cb(err)] when true and [onError(err)] then [cb()] when
    false. *)
Theorem spawnTask_completion_policy
    (command : string) (args : list string) (cb : string) (f : option bool)
    (w : Supervisor.world) (code : Z) (err : Js.error) :
  let w' := Supervisor.spawnTask command args cb f w in
  let p := length (Supervisor.spawned w) in
  let after e := drop (length (Supervisor.trace w'))
                      (Supervisor.trace (Supervisor.step w' e)) in
  after (Supervisor.ChildExit p (Some 0%Z)) = [Callback cb None] ∧
  (code ≠ 0%Z → default true f = true →
     after (Supervisor.ChildExit p (Some code))
     = [Beep;
        Callback cb (Some (Js.new_Error ("Task failed with code " +:+ pretty code)))]) ∧
  (code ≠ 0%Z → f = Some false →
     after (Supervisor.ChildExit p (Some code))
     = Supervisor.onError Supervisor.ThisUndefined (Js.ExitCode code)
       ++ [Callback cb None] ∧
     reported (after (Supervisor.ChildExit p (Some code))) = true ∧
     callbacks cb (after (Supervisor.ChildExit p (Some code))) = [None]) ∧
  (default true f = true →
     after (Supervisor.ChildError p err) = [Beep; Callback cb (Some err)]) ∧
  (f = Some false →
     after (Supervisor.ChildError p err)
     = Supervisor.onError Supervisor.ThisUndefined err ++ [Callback cb None] ∧
     reported (after (Supervisor.ChildError p err)) = true ∧
     callbacks cb (after (Supervisor.ChildError p err)) = [None]).
Proof.
  intros w' p after.
  assert (Hexit : ∀ c, after (Supervisor.ChildExit p c)
    = Supervisor.on_exit (Supervisor.Child p command args cb (default true f)) c).
  { intros c. unfold after. simpl. unfold w', p.
    rewrite find_child_new. simpl. by rewrite drop_app_length. }
  assert (Herr : after (Supervisor.ChildError p err)
    = Supervisor.on_error (Supervisor.Child p command args cb (default true f)) err).
  { unfold after. simpl. unfold w', p.
    rewrite find_child_new. simpl. by rewrite drop_app_length. }
  rewrite Herr. rewrite !Hexit. clear Hexit Herr.
  unfold Supervisor.on_exit, Supervisor.on_error. simpl Supervisor.failOnError.
  simpl Supervisor.cb.
  split; [reflexivity|].
  split; [intros Hc ->; by rewrite code_truthy_nonzero|].
  split; [intros Hc ->; rewrite code_truthy_nonzero by done; simpl default|].
  { split; [reflexivity|]. split; [reflexivity|].
    by rewrite callbacks_app, callbacks_onError, callbacks_self. }
  split; [by intros ->|].
  intros ->. simpl default. cbv iota.
  split; [reflexivity|]. split; [reflexivity|].
  by rewrite callbacks_app, callbacks_onError, callbacks_self.
Qed.

Lemma spawnTask_completion_policy_witness :
  let w' := Supervisor.spawnTask "./node_modules/.bin/nyc" [] "jstest-nofail"
                                 (Some false) Supervisor.init in
  drop (length (Supervisor.trace w'))
       (Supervisor.trace (Supervisor.step w' (Supervisor.ChildExit 0 (Some 2%Z))))
  = [Log [[Red "Task failed with code: 2"]]; Beep; Callback "jstest-nofail" None].
Proof.
  pose proof (spawnTask_completion_policy "./node_modules/.bin/nyc" []
    "jstest-nofail" (Some false) Supervisor.init 2 (Js.ExitCode 2)) as H.
  destruct H as (_ & _ & H & _).
  destruct H as (H & _); [lia | reflexivity |].
  exact H.
Defined.

(** C2, as the code has it: [spawned] holds the handle of every child ever
    started, in the order of the [spawnTask] calls; no event removes a
    handle. Hence every child still running has its handle in the array,
    and the listener of the process's ['exit'] event sends [kill] to every
    handle in the array, those of exited children included. *)
Theorem spawned_is_append_only (evs : list Supervisor.event) :
  let w := Supervisor.run Supervisor.init evs in
  Supervisor.spawned w = Supervisor.handles_from 0 evs ∧
  (∀ e, Supervisor.spawned w `prefix_of` Supervisor.spawned (Supervisor.step w e)) ∧
  Supervisor.live w ⊆ Supervisor.pid <$> Supervisor.spawned w ∧
  Supervisor.killed (Supervisor.on_process_exit w)
  = Supervisor.pid <$> Supervisor.spawned w.
Proof.
  intros w. split; [apply (run_spawned evs Supervisor.init)|].
  split; [intros e; rewrite step_spawned; by eexists|].
  split; [|apply killed_on_process_exit].
  destruct (run_supervised evs _ init_supervised) as [Hl Hp].
  fold w in Hl, Hp. by rewrite Hp.
Qed.

(** C2, counterexample: after one child was started and has exited, its
    handle is still in [spawned] although no child is running, and the
    shutdown listener sends [kill] to it. *)
Lemma spawned_keeps_exited_child :
  let w := Supervisor.run Supervisor.init
             [Supervisor.CallSpawnTask "./node_modules/.bin/nyc" [] "jstest" None;
              Supervisor.ChildExit 0 (Some 0%Z)] in
  Supervisor.live w = [] ∧
  Supervisor.pid <$> Supervisor.spawned w = [0] ∧
  Supervisor.pid <$> Supervisor.spawned w ≠ Supervisor.live w ∧
  Supervisor.killed (Supervisor.on_process_exit w) = [0].
Proof. vm_compute. done. Qed.

Section jstest_facts.
Import JsTest.

Lemma foldl_unshift (f : string → string) (vals args : list string) :
  foldl (λ args val, unshift (f val) args) args vals = rev (f <$> vals) ++ args.
Proof.
  revert args. induction vals as [|v vals IH]; intros args; simpl; [done|].
  rewrite IH. unfold unshift. by rewrite <- app_assoc.
Qed.

Lemma add_option_strings args kv :
  add_option args kv = rev (option_strings kv) ++ args.
Proof.
  unfold add_option, option_strings. destruct kv as [key [vals|b|s]]; simpl.
  - apply (foldl_unshift (λ val, "--" +:+ key +:+ "=" +:+ val)).
  - reflexivity.
  - reflexivity.
Qed.

Lemma foldl_add_option o args :
  foldl add_option args o = rev (flat_map option_strings o) ++ args.
Proof.
  revert args. induction o as [|kv o IH]; intros args; simpl; [done|].
  rewrite IH, add_option_strings, rev_app_distr. by rewrite <- app_assoc.
Qed.

Lemma option_strings_key_value kv : Forall is_key_value (option_strings kv).
Proof.
  unfold option_strings. destruct kv as [key [vals|b|s]]; simpl.
  - apply Forall_fmap, Forall_forall. intros val _. by exists key, val.
  - repeat constructor. by eexists key, _.
  - repeat constructor. by eexists key, _.
Qed.

Lemma flat_map_key_value o : Forall is_key_value (flat_map option_strings o).
Proof.
  induction o as [|kv o IH]; simpl; [constructor|].
  apply Forall_app. split; [apply option_strings_key_value | exact IH].
Qed.

End jstest_facts.

(** C10: for every value of [verbose], [getJsTestArgs(verbose)] is a list
    of [--key=value] strings followed by the mocha binary, [--reporter] and
    the reporter name, [spec] when [verbose] is truthy and [dot] otherwise.
    The option strings are those of the option object, one per scalar
    option and one per element of an array option, in the reverse of the
    order the loop meets them (ten of them). [jstest] spawns nyc with the
    [spec] list and fails on error; [jstest-nofail] spawns nyc with the
    [dot] list and does not. *)
Theorem getJsTestArgs_shape (verbose : Js.value) :
  let opts := rev (flat_map JsTest.option_strings (JsTest.obj verbose)) in
  let reporter v := if Js.truthy v then "spec" else "dot" in
  JsTest.getJsTestArgs verbose
  = opts ++ ["./node_modules/.bin/mocha"; "--reporter"; reporter verbose] ∧
  Forall JsTest.is_key_value opts ∧
  length opts = 10 ∧
  (∀ w, ∃ opts', Forall JsTest.is_key_value opts' ∧
     Supervisor.spawned (JsTest.jstest w)
     = Supervisor.spawned w ++
       [Supervisor.Child (length (Supervisor.spawned w)) "./node_modules/.bin/nyc"
          (opts' ++ ["./node_modules/.bin/mocha"; "--reporter"; "spec"])
          "jstest" true]) ∧
  (∀ w, ∃ opts', Forall JsTest.is_key_value opts' ∧
     Supervisor.spawned (JsTest.jstest_nofail w)
     = Supervisor.spawned w ++
       [Supervisor.Child (length (Supervisor.spawned w)) "./node_modules/.bin/nyc"
          (opts' ++ ["./node_modules/.bin/mocha"; "--reporter"; "dot"])
          "jstest-nofail" false]).
Proof.
  intros opts reporter.
  assert (Hargs : ∀ v, JsTest.getJsTestArgs v
    = rev (flat_map JsTest.option_strings (JsTest.obj v))
      ++ ["./node_modules/.bin/mocha"; "--reporter"; reporter v]).
  { intros v. unfold JsTest.getJsTestArgs. apply foldl_add_option. }
  assert (Hkv : ∀ v, Forall JsTest.is_key_value
    (rev (flat_map JsTest.option_strings (JsTest.obj v)))).
  { intros v. apply Forall_rev, flat_map_key_value. }
  split; [apply Hargs|]. split; [apply Hkv|].
  split; [unfold opts, JsTest.obj; by destruct (Js.truthy verbose)|].
  split; intros w; eexists; (split; [apply Hkv|]);
    unfold JsTest.jstest, JsTest.jstest_nofail, Supervisor.spawnTask;
    simpl Supervisor.spawned; by rewrite Hargs.
Qed.

(** C5, as the code has it: the handler bound to the style sources runs
    the lint (errors not fatal, command logged) on the event's path for a
    file-added and for a file-changed event alike, and does nothing for an
    event of any other type. *)
Theorem sass_watch_lints_added_and_changed (ev : Watch.file_event) :
  Watch.on_sass_event ev
  = (if bool_decide (Watch.type ev = "added" ∨ Watch.type ev = "changed")
     then [Log [[Plain "Running"];
                [Plain "'"; Cyan ("sasslint " +:+ Watch.path ev); Plain "'..."]];
           SassLint (Glob (Watch.path ev)) false]
     else []) ∧
  lints (Watch.on_sass_event ev)
  = (if bool_decide (Watch.type ev = "added" ∨ Watch.type ev = "changed")
     then [(Glob (Watch.path ev), false)]
     else []).
Proof.
  unfold Watch.on_sass_event.
  destruct (String.eqb_spec (Watch.type ev) "added") as [Ha|Ha];
    destruct (String.eqb_spec (Watch.type ev) "changed") as [Hc|Hc]; simpl.
  1-3: rewrite bool_decide_eq_true_2 by tauto; done.
  rewrite bool_decide_eq_false_2 by tauto. done.
Qed.

(** C5, counterexample: a file-added event on a style source does trigger
    the lint. *)
Lemma sass_watch_added_triggers_lint :
  lints (Watch.on_sass_event (Watch.FileEvent "added" "scss/_config.scss"))
  = [(Glob "scss/_config.scss", false)] ∧
  lints (Watch.on_sass_event (Watch.FileEvent "added" "scss/_config.scss")) ≠ [].
Proof. split; [reflexivity | discriminate]. Qed.

(** The fulfilled path of [svg-clean]: when the deletion of
    [templates/_icons.svg] is fulfilled, whatever paths it reports, the task
    calls its callback exactly once and without an error, which is what
    lets [svgmin] start. *)
Theorem svg_clean_completes_after_deletion
    (del : string → SvgClean.settled (list string)) (deleted : list string) :
  del "templates/_icons.svg" = SvgClean.Fulfilled deleted →
  SvgClean.svg_clean del = [Delete "templates/_icons.svg"; Callback "svg-clean" None] ∧
  callbacks "svg-clean" (SvgClean.svg_clean del) = [None] ∧
  SvgClean.signals_completion "svg-clean" (SvgClean.svg_clean del) = true ∧
  Registry.dep <$> Registry.tasks !! "svgmin" = Some ["svg-clean"].
Proof.
  intros Hdel. unfold SvgClean.svg_clean.
  change SvgClean.icons with "templates/_icons.svg". rewrite Hdel.
  repeat split; vm_compute; reflexivity.
Qed.

Lemma svg_clean_completes_after_deletion_witness :
  SvgClean.svg_clean (λ _, SvgClean.Fulfilled [])
  = [Delete "templates/_icons.svg"; Callback "svg-clean" None].
Proof.
  exact (proj1 (svg_clean_completes_after_deletion
                  (λ _, SvgClean.Fulfilled []) [] eq_refl)).
Defined.

(** C3: the task does not signal completion for every outcome of the
    deletion. When the deletion of [templates/_icons.svg] is rejected, the
    handler given to [then] is skipped and no rejection handler exists:
    [svg-clean] only requests the deletion, its callback is never called and
    completion is not signalled, so [svgmin] cannot start. *)
Lemma svg_clean_rejection_never_completes :
  let del := λ _ : string,
    SvgClean.Rejected (Js.ErrorObject "Error" "EACCES: permission denied") in
  SvgClean.svg_clean del = [Delete "templates/_icons.svg"] ∧
  callbacks "svg-clean" (SvgClean.svg_clean del) = [] ∧
  SvgClean.signals_completion "svg-clean" (SvgClean.svg_clean del) = false.
Proof. vm_compute. done. Qed.

(** ** Facts about prerequisite graphs *)

Section graph_facts.
Context (g : graph).

Lemma prereq_registered t d : prereq g t d → is_Some (g !! t).
Proof. intros (deps & Hd & _). eauto. Qed.

Lemma tc_prereq_registered t d : tc (prereq g) t d → is_Some (g !! t).
Proof. intros H. destruct H as [?? H|??? H _]; eapply prereq_registered, H. Qed.

Lemma ranked_prereq rank t d : ranked rank g → prereq g t d → rank d < rank t.
Proof.
  intros Hr (deps & Hd & Hin).
  apply (map_Forall_lookup_1 _ _ _ _ Hr) in Hd.
  rewrite Forall_forall in Hd. auto.
Qed.

Lemma ranked_tc rank t d : ranked rank g → tc (prereq g) t d → rank d < rank t.
Proof.
  intros Hr H. induction H as [t d H|t m d H _ IH].
  - by eapply ranked_prereq.
  - apply (ranked_prereq rank) in H; [lia | done].
Qed.

(** A graph with a ranking has no cycle. *)
Lemma ranked_acyclic rank : ranked rank g → acyclic g.
Proof. intros Hr t Ht. apply (ranked_tc rank) in Ht; [lia | done]. Qed.

Lemma task_graph_prereq t d : task_graph g → prereq g t d → is_Some (g !! d).
Proof.
  intros Hg (deps & Hd & Hin).
  apply (map_Forall_lookup_1 _ _ _ _ Hg) in Hd.
  rewrite Forall_forall in Hd. auto.
Qed.

Lemma task_graph_reach t d :
  task_graph g → is_Some (g !! t) → reach g t d → is_Some (g !! d).
Proof.
  intros Hg Ht H. induction H as [|t m d H _ IH]; [done|].
  apply IH. by eapply task_graph_prereq.
Qed.

End graph_facts.

Lemma registry_ranked :
  ranked (λ t, position t Registry.levels) Registry.prerequisites.
Proof. apply (bool_decide_unpack _). vm_compute. exact I. Qed.

(** C4: the prerequisite graph of the tasks registered in the gulpfile has
    no cycle: no task is among its own transitive prerequisites. *)
Theorem registry_acyclic : acyclic Registry.prerequisites.
Proof. exact (ranked_acyclic _ _ registry_ranked). Qed.

(** C6: the registry gives [compile] exactly the prerequisites [sass] and
    [minify], [minify] exactly [jsmin], [svgmin], [imagemin] and
    [copy-fonts], and [default] exactly [compile], [eslint], [sasslint] and
    [test], each in this order. *)
Theorem registry_composites :
  Registry.dep <$> Registry.tasks !! "compile" = Some ["sass"; "minify"] ∧
  Registry.dep <$> Registry.tasks !! "minify"
  = Some ["jsmin"; "svgmin"; "imagemin"; "copy-fonts"] ∧
  Registry.dep <$> Registry.tasks !! "default"
  = Some ["compile"; "eslint"; "sasslint"; "test"].
Proof. repeat split; vm_compute; reflexivity. Qed.

(** ** Facts about sorted sequences *)

Section sorted_facts.
Context (g : graph).

Lemma position_app_l (x : string) l1 l2 :
  x ∈ l1 → position x (l1 ++ l2) < length l1.
Proof.
  induction l1 as [|y l1 IH]; simpl.
  - by intros ?%elem_of_nil.
  - intros [->|Hin]%elem_of_cons; case_decide; try lia; try done.
    apply IH in Hin. lia.
Qed.

Lemma position_app_r (x : string) l1 l2 :
  x ∉ l1 → position x (l1 ++ x :: l2) = length l1.
Proof.
  induction l1 as [|y l1 IH]; simpl.
  - intros _. by rewrite decide_True.
  - intros [Hne H]%not_elem_of_cons. rewrite decide_False by done.
    by rewrite IH.
Qed.

Lemma sorted_nil : sorted g [].
Proof. intros [|??] ???; discriminate. Qed.

Lemma sorted_snoc seen name :
  sorted g seen → (∀ d, prereq g name d → d ∈ seen) → sorted g (seen ++ [name]).
Proof.
  intros Hs Hdeps l1 t l2 d Heq Hp.
  destruct l2 as [|z l2 _] using rev_ind.
  - apply app_inj_tail in Heq as [-> ->]. auto.
  - change (l1 ++ t :: l2 ++ [z]) with (l1 ++ (t :: l2) ++ [z]) in Heq.
    rewrite app_assoc in Heq. apply app_inj_tail in Heq as [-> _].
    by eapply Hs.
Qed.

Lemma sorted_prereq seen t d :
  sorted g seen → t ∈ seen → prereq g t d → d ∈ seen.
Proof.
  intros Hs (l1 & l2 & ->)%list_elem_of_split Hp.
  apply elem_of_app. left. by eapply Hs.
Qed.

Lemma sorted_reach seen t d :
  sorted g seen → t ∈ seen → reach g t d → d ∈ seen.
Proof.
  intros Hs Ht H. induction H as [|t m d H _ IH]; [done|].
  apply IH. by eapply sorted_prereq.
Qed.


Lemma sorted_position seen t d :
  sorted g seen → t ∈ seen → prereq g t d →
  position d seen < position t seen.
Proof.
  intros Hs (l1 & l2 & -> & Hnot)%list_elem_of_split_l Hp.
  rewrite position_app_r by done.
  apply position_app_l. by eapply Hs.
Qed.

Lemma sorted_tc_position seen t d :
  sorted g seen → t ∈ seen → tc (prereq g) t d →
  position d seen < position t seen.
Proof.
  intros Hs Ht H. induction H as [t d H|t m d H _ IH].
  - by apply sorted_position.
  - pose proof (sorted_position _ _ _ Hs Ht H).
    pose proof (sorted_prereq _ _ _ Hs Ht H). specialize (IH ltac:(done)). lia.
Qed.

(** No member of a sorted sequence lies on a cycle. *)
Lemma sorted_no_cycle seen t :
  sorted g seen → t ∈ seen → ¬ tc (prereq g) t t.
Proof. intros Hs Ht H. pose proof (sorted_tc_position _ _ _ Hs Ht H). lia. Qed.


(** Distinct registered names are at most as many as the tasks. *)
Lemma registered_length (l : list string) :
  NoDup l → (∀ x, x ∈ l → is_Some (g !! x)) → length l ≤ size g.
Proof.
  intros Hnd Hreg.
  rewrite <- (size_list_to_set (C:=gset string) l) by done.
  rewrite <- (size_dom (D:=gset string) g).
  apply subseteq_size. intros x Hx%elem_of_list_to_set.
  apply elem_of_dom. auto.
Qed.

End sorted_facts.

(** ** Facts about the resolver *)

Section resolver_facts.
Import Resolver.
Context (g : graph).


Lemma visit_all_fail visit1 deps seen e :
  visit_all visit1 deps seen = Fail e →
  ∃ d seen1, d ∈ deps ∧ visit1 seen1 d = Fail e.
Proof.
  revert seen. induction deps as [|d ds IH]; intros seen; simpl; [done|].
  destruct (visit1 seen d) as [seen1| |] eqn:Hd; intros H.
  - destruct (IH _ H) as (d' & seen' & Hin & Hv).
    exists d', seen'. split; [by right | done].
  - exists d, seen. split; [by left | congruence].
  - discriminate.
Qed.

Lemma visit_all_out visit1 deps seen :
  visit_all visit1 deps seen = OutOfFuel →
  ∃ d seen1, d ∈ deps ∧ visit1 seen1 d = OutOfFuel.
Proof.
  revert seen. induction deps as [|d ds IH]; intros seen; simpl; [done|].
  destruct (visit1 seen d) as [seen1| |] eqn:Hd; intros H.
  - destruct (IH _ H) as (d' & seen' & Hin & Hv).
    exists d', seen'. split; [by right | done].
  - discriminate.
  - exists d, seen. split; [by left | done].
Qed.

Lemma extends_refl gray seen roots :
  NoDup seen → sorted g seen → (∀ d, d ∈ roots → d ∈ seen) →
  extends g gray seen roots seen.
Proof.
  intros Hnd Hs Hr. exists []. rewrite app_nil_r.
  do 4 (split; [done|]). by intros ? ?%elem_of_nil.
Qed.

Lemma extends_cons gray seen d ds seen1 seen2 :
  extends g gray seen [d] seen1 → extends g gray seen1 ds seen2 →
  extends g gray seen (d :: ds) seen2.
Proof.
  intros (new1 & -> & Hnd1 & Hs1 & Hr1 & Hn1) (new2 & -> & Hnd2 & Hs2 & Hr2 & Hn2).
  exists (new1 ++ new2). rewrite app_assoc. do 3 (split; [done|]). split.
  - intros d' [->|Hin]%elem_of_cons; [|auto].
    apply elem_of_app. left. apply Hr1. by left.
  - intros x [H|H]%elem_of_app.
    + destruct (Hn1 _ H) as [(d' & ->%list_elem_of_singleton & Hreach) Hg].
      split; [|done]. exists d. split; [by left | done].
    + destruct (Hn2 _ H) as [(d' & Hin & Hreach) Hg].
      split; [|done]. exists d'. split; [by right | done].
Qed.

Lemma visit_all_extends visit1 gray :
  (∀ seen name seen', NoDup seen → sorted g seen →
     visit1 seen name = Ok seen' → extends g gray seen [name] seen') →
  ∀ deps seen seen', NoDup seen → sorted g seen →
    visit_all visit1 deps seen = Ok seen' → extends g gray seen deps seen'.
Proof.
  intros Hvisit deps. induction deps as [|d ds IH]; intros seen seen' Hnd Hs; simpl.
  - intros [= <-]. apply extends_refl; auto. by intros ? ?%elem_of_nil.
  - destruct (visit1 seen d) as [seen1| |] eqn:Hd; try discriminate.
    intros Hrest. pose proof (Hvisit _ _ _ Hnd Hs Hd) as Hext.
    eapply extends_cons; [exact Hext|].
    destruct Hext as (new1 & -> & Hnd1 & Hs1 & _). by apply IH.
Qed.

Lemma extends_finish gray seen name deps seen1 :
  g !! name = Some deps → name ∉ gray → name ∉ seen →
  extends g (name :: gray) seen deps seen1 →
  extends g gray seen [name] (seen1 ++ [name]).
Proof.
  intros Hdeps Hgray Hseen (new & -> & Hnd & Hs & Hr & Hn).
  exists (new ++ [name]). rewrite app_assoc.
  assert (name ∉ seen ++ new) as Hfresh.
  { intros [?|Hin]%elem_of_app; [done|].
    destruct (Hn _ Hin) as [_ Hnot]. apply Hnot. by left. }
  split; [done|]. split; [|split; [|split]].
  - apply NoDup_app. split; [done|]. split; [|apply NoDup_singleton].
    by intros x Hx ->%list_elem_of_singleton.
  - apply sorted_snoc; [done|].
    intros d (deps' & Hd & Hin). apply Hr. congruence.
  - intros d ->%list_elem_of_singleton. apply elem_of_app. right. by left.
  - intros x [H| ->%list_elem_of_singleton]%elem_of_app.
    + destruct (Hn _ H) as [(d & Hin & Hreach) Hnot]. split.
      * exists name. split; [by left|].
        eapply rtc_l; [|exact Hreach]. by exists deps.
      * intros ?. apply Hnot. by right.
    + split; [|done]. exists name. split; [by left | apply rtc_refl].
Qed.

(** What a successful visit returns. *)
Lemma visit_extends fuel gray seen name seen' :
  NoDup seen → sorted g seen →
  visit fuel g gray seen name = Ok seen' → extends g gray seen [name] seen'.
Proof.
  revert gray seen name seen'.
  induction fuel as [|fuel IH]; intros gray seen name seen' Hnd Hs; simpl; [done|].
  destruct (decide (name ∈ gray)) as [|Hgray]; [done|].
  destruct (decide (name ∈ seen)) as [Hin|Hseen].
  { intros [= <-]. apply extends_refl; auto.
    by intros d ->%list_elem_of_singleton. }
  destruct (g !! name) as [deps|] eqn:Hdeps; [|done].
  destruct (visit_all _ deps seen) as [seen1| |] eqn:Hall; try done.
  intros [= <-]. eapply extends_finish; eauto.
  eapply (visit_all_extends _ (name :: gray)); [|done|done|exact Hall].
  intros ?????. by apply IH.
Qed.

(** What a failed visit reports. *)
Lemma visit_fail fuel gray seen name e :
  visit fuel g gray seen name = Fail e →
  match e with
  | UnknownTaskError x => reach g name x ∧ g !! x = None
  | CyclicDependencyError x => reach g name x ∧ (x ∈ gray ∨ tc (prereq g) x x)
  end.
Proof.
  revert gray seen name.
  induction fuel as [|fuel IH]; intros gray seen name; simpl; [done|].
  destruct (decide (name ∈ gray)) as [Hgray|Hgray].
  { intros [= <-]. split; [apply rtc_refl | by left]. }
  destruct (decide (name ∈ seen)) as [Hin|Hseen]; [done|].
  destruct (g !! name) as [deps|] eqn:Hdeps.
  2:{ intros [= <-]. split; [apply rtc_refl | done]. }
  destruct (visit_all _ deps seen) as [seen1| |] eqn:Hall; try done.
  intros [= <-]. apply visit_all_fail in Hall as (d & seen1 & Hin & Hv).
  assert (prereq g name d) as Hp by by exists deps.
  apply IH in Hv. destruct e0 as [x|x].
  - destruct Hv as [Hreach Hx]. split; [by eapply rtc_l | done].
  - destruct Hv as [Hreach Hx]. split; [by eapply rtc_l|].
    destruct Hx as [[->|Hx]%elem_of_cons|Hx]; auto.
    right. eapply tc_rtc_r; [by apply tc_once | done].
Qed.

(** The recursion budget of [resolve] is never used up. *)
Lemma visit_fuel fuel gray seen name :
  NoDup gray → (∀ x, x ∈ gray → is_Some (g !! x)) →
  size g < fuel + length gray →
  visit fuel g gray seen name ≠ OutOfFuel.
Proof.
  revert gray seen name.
  induction fuel as [|fuel IH]; intros gray seen name Hnd Hreg Hsize; simpl.
  { pose proof (registered_length g gray Hnd Hreg). lia. }
  destruct (decide (name ∈ gray)) as [Hgray|Hgray]; [done|].
  destruct (decide (name ∈ seen)) as [Hin|Hseen]; [done|].
  destruct (g !! name) as [deps|] eqn:Hdeps; [|done].
  destruct (visit_all _ deps seen) as [seen1| |] eqn:Hall; try done.
  apply visit_all_out in Hall as (d & seen1 & Hin & Hv).
  exfalso. revert Hv. apply IH.
  - by apply NoDup_cons.
  - intros x [->|Hx]%elem_of_cons; eauto.
  - simpl. lia.
Qed.

Lemma resolve_terminates name : resolve g name ≠ OutOfFuel.
Proof.
  apply visit_fuel; [constructor| |simpl; lia].
  by intros ? ?%elem_of_nil.
Qed.

Lemma resolve_ok name order :
  resolve g name = Ok order →
  NoDup order ∧ sorted g order ∧ ∀ x, x ∈ order ↔ reach g name x.
Proof.
  intros H. apply visit_extends in H; [|constructor|apply sorted_nil].
  destruct H as (new & -> & Hnd & Hs & Hr & Hn). simpl in *.
  repeat split; auto.
  - intros Hx. destruct (Hn _ Hx) as [(d & ->%list_elem_of_singleton & Hreach) _].
    done.
  - intros Hreach. eapply sorted_reach; [done| |done]. apply Hr. by left.
Qed.


End resolver_facts.

(** ** Declaration order below any task of the sequence *)

Section resolver_siblings.
Import Resolver.
Context (g : graph) (t : string).






End resolver_siblings.

Lemma resolve_fail (g : graph) name e :
  Resolver.resolve g name = Resolver.Fail e →
  match e with
  | Resolver.UnknownTaskError x => reach g name x ∧ g !! x = None
  | Resolver.CyclicDependencyError x => reach g name x ∧ tc (prereq g) x x
  end.
Proof.
  intros H%visit_fail. destruct e as [x|x]; [done|].
  destruct H as [Hreach [?%elem_of_nil|Htc]]; done.
Qed.


(** A task that was visited earlier along another path keeps its earlier
    place: in the graph [shared], T lists P before Y, yet Y precedes P in
    [resolve(R)] because R lists Y before T. *)
Example resolve_shared :
  Resolver.resolve Resolver.shared "R" = Resolver.Ok ["Y"; "P"; "T"; "R"].
Proof. vm_compute. reflexivity. Qed.



(** C8: in a task graph (every listed prerequisite is registered) with a
    cycle reachable from the requested name, [resolve(name)] returns a
    [CyclicDependencyError], naming a task that is reachable from [name]
    and lies on a cycle; invoking the task then fails at resolution with
    that error and starts no action. *)
Theorem resolve_cycle (g : graph) (name c : string) :
  task_graph g → reach g name c → tc (prereq g) c c →
  ∃ x,
    Resolver.resolve g name = Resolver.Fail (Resolver.CyclicDependencyError x) ∧
    reach g name x ∧ tc (prereq g) x x ∧
    ∀ action,
      Resolver.invoke g action name
      = ([], Resolver.ResolutionFailed (Resolver.CyclicDependencyError x)).
Proof.
  intros Hg Hreach Hcyc.
  assert (is_Some (g !! name)) as Hname.
  { apply rtc_inv in Hreach as [->|(m & Hp & _)].
    - by eapply tc_prereq_registered.
    - by eapply prereq_registered. }
  destruct (Resolver.resolve g name) as [order|e|] eqn:Hres.
  - exfalso. destruct (resolve_ok _ _ _ Hres) as (_ & Hs & Hmem).
    apply (sorted_no_cycle g order c Hs); [by apply Hmem | done].
  - pose proof (resolve_fail _ _ _ Hres) as Hfail. destruct e as [x|x].
    + exfalso. destruct Hfail as [Hx Hnone].
      apply (task_graph_reach g name x Hg Hname) in Hx as [? Hx]. congruence.
    + exists x. destruct Hfail as [Hx Htc]. do 3 (split; [done|]).
      intros action. unfold Resolver.invoke. by rewrite Hres.
  - exfalso. by apply (resolve_terminates g name).
Qed.

Lemma resolve_cycle_witness :
  ∃ x, Resolver.resolve Resolver.ab_cycle "A"
       = Resolver.Fail (Resolver.CyclicDependencyError x).
Proof.
  assert (Hg : task_graph Resolver.ab_cycle).
  { apply (bool_decide_unpack _). vm_compute. exact I. }
  assert (Hab : prereq Resolver.ab_cycle "A" "B").
  { exists ["B"]. split; [vm_compute; reflexivity | by left]. }
  assert (Hba : prereq Resolver.ab_cycle "B" "A").
  { exists ["A"]. split; [vm_compute; reflexivity | by left]. }
  destruct (resolve_cycle Resolver.ab_cycle "A" "A" Hg (rtc_refl _ _)
              (tc_l _ _ _ _ Hab (tc_once _ _ _ Hba))) as (x & Hres & _).
  exists x. exact Hres.
Defined.

(** * Further properties of the supervisor *)

Section supervisor_more.
Import Supervisor.

Lemma callbacks_on_error c err :
  callbacks (cb c) (on_error c err) = [if failOnError c then Some err else None].
Proof.
  unfold on_error. destruct (failOnError c).
  - unfold callbacks. simpl. by rewrite decide_True.
  - by rewrite callbacks_app, callbacks_onError, callbacks_self.
Qed.

Lemma callbacks_on_exit c code :
  callbacks (cb c) (on_exit c code)
  = [if code_truthy code && failOnError c
     then Some (Js.new_Error ("Task failed with code " +:+ pretty (default 0%Z code)))
     else None].
Proof.
  unfold on_exit. destruct (code_truthy code), (failOnError c); cbn [andb].
  - unfold callbacks. simpl. by rewrite decide_True.
  - by rewrite callbacks_app, callbacks_onError, callbacks_self.
  - apply callbacks_self.
  - apply callbacks_self.
Qed.

Lemma code_truthy_false code :
  code_truthy code = false ↔ code = None ∨ code = Some 0%Z.
Proof.
  destruct code as [n|]; simpl.
  - destruct (Z.eqb_spec n 0); simpl; split; try done.
    + intros _. right. by f_equal.
    + intros [?|[=]]; done.
  - split; auto.
Qed.

Lemma failures_app (t1 t2 : list effect) :
  failures (t1 ++ t2) = failures t1 ++ failures t2.
Proof. apply omap_app. Qed.

Lemma failures_onError this err : failures (onError this err) = [].
Proof. unfold onError. by destruct (can_emit this). Qed.

Lemma failures_best_effort_child c :
  failOnError c = false →
  (∀ err, failures (on_error c err) = []) ∧ (∀ code, failures (on_exit c code) = []).
Proof.
  intros Hf. split.
  - intros err. unfold on_error. rewrite Hf.
    by rewrite failures_app, failures_onError.
  - intros code. unfold on_exit. rewrite Hf.
    destruct (code_truthy code); [|done].
    by rewrite failures_app, failures_onError.
Qed.

Lemma failures_on_process_exit w : failures (on_process_exit w) = [].
Proof.
  unfold on_process_exit. induction (spawned w) as [|c l IH]; [done|exact IH].
Qed.

Lemma step_quiet w e : best_effort e = true → quiet w → quiet (step w e).
Proof.
  intros He [Hc Ht]. destruct e as [command args cb [[]|]|p err|p code|];
    try discriminate; simpl.
  - split; simpl.
    + apply Forall_app. split; [done|]. by repeat constructor.
    + by rewrite failures_app, Ht.
  - unfold find_child. destruct (spawned w !! p) as [c|] eqn:Hp; [|done].
    split; simpl; [done|].
    rewrite failures_app, Ht. simpl.
    apply failures_best_effort_child.
    rewrite Forall_forall in Hc. by eapply Hc, list_elem_of_lookup_2.
  - unfold find_child. destruct (spawned w !! p) as [c|] eqn:Hp; [|done].
    split; simpl; [done|].
    rewrite failures_app, Ht. simpl.
    apply failures_best_effort_child.
    rewrite Forall_forall in Hc. by eapply Hc, list_elem_of_lookup_2.
  - split; simpl; [done|]. by rewrite failures_app, Ht, failures_on_process_exit.
Qed.

Lemma run_quiet evs w :
  Forall (λ e, best_effort e = true) evs → quiet w → quiet (run w evs).
Proof.
  revert w. induction evs as [|e evs IH]; intros w Hevs Hw; simpl; [done|].
  apply Forall_cons in Hevs as [He Hevs]. apply IH; [done|]. by apply step_quiet.
Qed.

Lemma trace_after_exit command args cb f w code :
  let w' := spawnTask command args cb f w in
  trace (step w' (ChildExit (length (spawned w)) code))
  = trace w' ++ on_exit (Child (length (spawned w)) command args cb (default true f)) code.
Proof. intros w'. simpl. unfold w'. by rewrite find_child_new. Qed.


End supervisor_more.

(** X1: the ['exit'] listener of a child started by [spawnTask] calls [cb]
    without an error exactly when the exit code is [null] (the child was
    ended by a signal) or zero, or when [failOnError] was passed as false;
    for a [null] code it does nothing but call [cb()]. *)
Theorem exit_listener_success_iff
    (command : string) (args : list string) (cb : string) (f : option bool)
    (w : Supervisor.world) (code : option Z) :
  let w' := Supervisor.spawnTask command args cb f w in
  let p := length (Supervisor.spawned w) in
  let after e := drop (length (Supervisor.trace w'))
                      (Supervisor.trace (Supervisor.step w' e)) in
  after (Supervisor.ChildExit p None) = [Callback cb None] ∧
  (callbacks cb (after (Supervisor.ChildExit p code)) = [None]
   ↔ code = None ∨ code = Some 0%Z ∨ f = Some false).
Proof.
  intros w' p after.
  assert (Hafter : ∀ c, after (Supervisor.ChildExit p c)
    = Supervisor.on_exit (Supervisor.Child p command args cb (default true f)) c).
  { intros c. unfold after, w', p. rewrite trace_after_exit.
    by rewrite drop_app_length. }
  rewrite !Hafter. split; [reflexivity|].
  rewrite (callbacks_on_exit (Supervisor.Child p command args cb (default true f))).
  simpl Supervisor.failOnError.
  destruct (Supervisor.code_truthy code) eqn:Hc; cbn [andb].
  - assert (¬ (code = None ∨ code = Some 0%Z)) as Hnot.
    { intros H%code_truthy_false. congruence. }
    destruct f as [[]|]; simpl; split; try done; try tauto.
    + intros [?|[?|?]]; [tauto|tauto|done].
    + intros [?|[?|?]]; [tauto|tauto|done].
  - apply code_truthy_false in Hc. split; [tauto|done].
Qed.

(** X2: the two listeners do not guard against each other: when a child
    emits ['error'] and then ['exit'], its callback is called twice, once
    by each listener. *)
Theorem callback_called_by_each_listener
    (command : string) (args : list string) (cb : string) (f : option bool)
    (w : Supervisor.world) (err : Js.error) (code : option Z) :
  let w' := Supervisor.spawnTask command args cb f w in
  let p := length (Supervisor.spawned w) in
  let c := Supervisor.Child p command args cb (default true f) in
  let t := drop (length (Supervisor.trace w'))
             (Supervisor.trace
                (Supervisor.run w' [Supervisor.ChildError p err;
                                    Supervisor.ChildExit p code])) in
  t = Supervisor.on_error c err ++ Supervisor.on_exit c code ∧
  length (callbacks cb t) = 2.
Proof.
  intros w' p c t.
  assert (Ht : t = Supervisor.on_error c err ++ Supervisor.on_exit c code).
  { unfold t, w', p. simpl. rewrite find_child_new. simpl.
    unfold Supervisor.find_child. simpl.
    rewrite lookup_app_r by lia. rewrite Nat.sub_diag. simpl.
    rewrite <- app_assoc. by rewrite drop_app_length. }
  split; [exact Ht|]. rewrite Ht, callbacks_app.
  rewrite (callbacks_on_error c), (callbacks_on_exit c). reflexivity.
Qed.

(** X3: when every call of [spawnTask] passes [false] for [failOnError], no
    completion callback ever receives an error, whatever the children do:
    exit with any code, fail to start, or be killed at shutdown. *)
Theorem best_effort_never_fails (evs : list Supervisor.event) :
  Forall (λ e, best_effort e = true) evs →
  failures (Supervisor.trace (Supervisor.run Supervisor.init evs)) = [].
Proof.
  intros Hevs. apply (run_quiet evs Supervisor.init Hevs).
  split; [constructor | reflexivity].
Qed.

Lemma best_effort_never_fails_witness :
  failures (Supervisor.trace (Supervisor.run Supervisor.init
    [Supervisor.CallSpawnTask "./node_modules/.bin/nyc" [] "jstest-nofail" (Some false);
     Supervisor.ChildExit 0 (Some 2%Z);
     Supervisor.ProcessExit])) = [].
Proof.
  apply best_effort_never_fails. repeat constructor.
Defined.


(** X5: what [onError] logs: the error's own message when it has a
    non-empty one; otherwise "Task failed with code: " followed by the
    error's name, or by the decimal exit code when it was given a number.
    Different exit codes give different log lines. *)
Theorem onError_message (this : Supervisor.receiver) :
  (∀ name msg, msg ≠ "" →
     head (Supervisor.onError this (Js.ErrorObject name msg)) = Some (Log [[Red msg]])) ∧
  (∀ name,
     head (Supervisor.onError this (Js.ErrorObject name ""))
     = Some (Log [[Red ("Task failed with code: " +:+ name)]])) ∧
  (∀ n,
     head (Supervisor.onError this (Js.ExitCode n))
     = Some (Log [[Red ("Task failed with code: " +:+ pretty n)]])) ∧
  (∀ m n,
     Supervisor.onError this (Js.ExitCode m) = Supervisor.onError this (Js.ExitCode n) →
     m = n).
Proof.
  split; [|split; [|split]].
  - intros name msg Hmsg. simpl.
    destruct (String.eqb_spec msg ""); [done|reflexivity].
  - reflexivity.
  - reflexivity.
  - intros m n H. injection H as H.
    by apply (inj (String.app "")), (inj pretty) in H.
Qed.

(** * Further properties of the argument builder *)

Lemma option_strings_length kv :
  length (JsTest.option_strings kv) = option_count kv.
Proof.
  unfold JsTest.option_strings, option_count.
  destruct kv as [key [vals|b|s]]; simpl; [apply length_fmap|done|done].
Qed.

Lemma flat_map_option_strings_length o :
  length (flat_map JsTest.option_strings o) = sum_list (option_count <$> o).
Proof.
  induction o as [|kv o IH]; simpl; [done|].
  by rewrite length_app, option_strings_length, IH.
Qed.

(** X6: the loop of [getJsTestArgs], run on any option object and any
    initial argument list, leaves the initial arguments at the end and puts
    before them one [--key=value] string per scalar option and one per
    element of an array option; an empty array adds nothing. *)
Theorem option_loop_prepends (o : list (string * JsTest.opt)) (args : list string) :
  ∃ opts,
    foldl JsTest.add_option args o = opts ++ args ∧
    length opts = sum_list (option_count <$> o) ∧
    Forall JsTest.is_key_value opts ∧
    (∀ s, s ∈ opts ↔ ∃ kv, kv ∈ o ∧ s ∈ JsTest.option_strings kv).
Proof.
  exists (rev (flat_map JsTest.option_strings o)).
  split; [apply foldl_add_option|].
  split; [by rewrite length_rev, flat_map_option_strings_length|].
  split; [apply Forall_rev, flat_map_key_value|].
  intros s. rewrite list_elem_of_In, <- in_rev, in_flat_map. split.
  - intros (kv & Hkv & Hs). exists kv. by rewrite !list_elem_of_In.
  - intros (kv & Hkv & Hs). exists kv. by rewrite <- !list_elem_of_In.
Qed.

(** * Properties of the stream pipelines *)

(** X7: [eslintTask] and the stream of [sasslintTask] attach [onError] to
    the last stream of their chain exactly when [failOnError] is falsy (so
    also when the argument is omitted); an error of that stream is then
    logged, the bell rings and ['end'] is emitted on the stream. With a
    truthy [failOnError] the file handles no error of the chain, and errors
    of the earlier streams are never handled. [eslintTask] logs the
    "Running" line exactly when [log] is truthy. *)
Theorem lint_error_policy (src : globs) (f log : Js.value) (err : Js.error) :
  let last_stage := if Js.truthy f
                    then Pipeline.Unhandled err
                    else Pipeline.Handled
                           (Supervisor.onError (Supervisor.ThisObject true) err) in
  let c := (Pipeline.eslintTask src f log).2 in
  let s := Pipeline.sasslintStream f in
  (∀ i, Pipeline.raise c i err
        = if decide (i < 3) then Some (Pipeline.Unhandled err)
          else if decide (i = 3) then Some last_stage else None) ∧
  (∀ i, Pipeline.raise s i err
        = if decide (i < 3) then Some (Pipeline.Unhandled err)
          else if decide (i = 3) then Some last_stage else None) ∧
  ((Pipeline.eslintTask src f log).1
   = if Js.truthy log
     then [Log [[Plain "Running"];
                [Plain "'"; Cyan ("eslint " +:+ globs_to_string src); Plain "'..."]]]
     else []) ∧
  Pipeline.raise (Pipeline.eslint).2 3 err = Some (Pipeline.Unhandled err) ∧
  Pipeline.raise (Pipeline.eslint_nofail).2 3 err
  = Some (Pipeline.Handled (Supervisor.onError (Supervisor.ThisObject true) err)).
Proof.
  intros last_stage c s. unfold last_stage, c, s.
  unfold Pipeline.eslintTask, Pipeline.sasslintStream, Pipeline.announce.
  split; [|split; [|split; [|split]]]; try reflexivity.
  - intros [|[|[|[|i]]]]; destruct (Js.truthy f); reflexivity.
  - intros [|[|[|[|i]]]]; destruct (Js.truthy f); reflexivity.
Qed.

(** X8: in the task [sass] only the stream of the Sass compiler has an
    error listener: an error of the compiler is logged, the bell rings and
    ['end'] is emitted on that stream; errors of the source, source-map,
    autoprefixer and destination streams are not handled by the file. *)
Theorem sass_handles_compiler_errors_only (i : nat) (err : Js.error) :
  Pipeline.raise Pipeline.sass i err
  = if decide (i = 2)
    then Some (Pipeline.Handled (Supervisor.onError (Supervisor.ThisObject true) err))
    else if decide (i < 6) then Some (Pipeline.Unhandled err) else None.
Proof.
  destruct i as [|[|[|[|[|[|i]]]]]]; reflexivity.
Qed.


(** * Properties of the registry, the watch bindings and the paths *)

(** X10: every task name the file mentions is registered: each
    prerequisite listed in a [gulp.task] call, and each task bound by a
    [gulp.watch] call. *)
Theorem mentioned_tasks_are_registered :
  (∀ t d, prereq Registry.prerequisites t d → is_Some (Registry.tasks !! d)) ∧
  Forall (λ n, is_Some (Registry.tasks !! n)) WatchBindings.bound_tasks.
Proof.
  split.
  - assert (task_graph Registry.prerequisites) as Hg.
    { apply (bool_decide_unpack _). vm_compute. exact I. }
    intros t d Hp. apply (task_graph_prereq _ _ _ Hg) in Hp.
    unfold Registry.prerequisites in Hp. rewrite lookup_fmap in Hp.
    by apply fmap_is_Some in Hp.
  - apply (bool_decide_unpack _). vm_compute. exact I.
Qed.

(** X11: whatever the deletion does, [svg-clean] first asks for
    [templates/_icons.svg] to be deleted, never passes an error to its
    callback and calls it at most once; it calls it exactly when the
    deletion is fulfilled. *)
Theorem svg_clean_never_fails (del : string → SvgClean.settled (list string)) :
  head (SvgClean.svg_clean del) = Some (Delete "templates/_icons.svg") ∧
  failures (SvgClean.svg_clean del) = [] ∧
  length (callbacks "svg-clean" (SvgClean.svg_clean del)) ≤ 1 ∧
  (SvgClean.signals_completion "svg-clean" (SvgClean.svg_clean del) = true
   ↔ ∃ deleted, del "templates/_icons.svg" = SvgClean.Fulfilled deleted).
Proof.
  unfold SvgClean.svg_clean. change SvgClean.icons with "templates/_icons.svg".
  destruct (del "templates/_icons.svg") as [deleted|reason] eqn:Hdel.
  - do 2 (split; [reflexivity|]). split; [vm_compute; lia|].
    split; [by exists deleted | intros _; by vm_compute].
  - do 2 (split; [reflexivity|]). split; [vm_compute; lia|].
    split; [by vm_compute | by intros [? ?]].
Qed.

(** X12: for any paths object, [init()] leaves the literal's fields as they
    are and assigns six glob lists, each ending with the shared [IGNORE]
    patterns; calling it again changes nothing. For the object of the file
    the lists are the ones the tasks read. *)
Theorem init_appends_ignore (p : PathsObject.t) :
  PathsObject.fields (PathsObject.init p) = PathsObject.fields p ∧
  length (PathsObject.derived_lists (PathsObject.init p)) = 6 ∧
  Forall (λ l, PathsObject.IGNORE (PathsObject.fields p) `suffix_of` l)
         (PathsObject.derived_lists (PathsObject.init p)) ∧
  PathsObject.init (PathsObject.init p) = PathsObject.init p ∧
  PathsObject.derived_lists (PathsObject.init PathsObject.literal)
  = [paths.TEMPLATES; paths.SASS; paths.ASSETS_JS; paths.JS_TESTS;
     PathsObject.ALL_JS (PathsObject.derive (PathsObject.fields PathsObject.literal));
     paths.JS_TESTS_FILES].
Proof.
  split; [reflexivity|]. split; [reflexivity|]. split; [|split; reflexivity].
  unfold PathsObject.derived_lists, PathsObject.init, PathsObject.derive. simpl.
  repeat (apply Forall_cons; split; [repeat apply suffix_cons_r; reflexivity|]).
  constructor.
Qed.
